(** * alog: metadata-prefixed logging over Go's [log] package

    A shallow embedding of [alog.go]: the ordered metadata store [Meta]
    (a Go map from keys to [MetaEntry], formatted by placing each entry
    at the slot of its order number), the logger [Log] that owns one
    store, and the part of package [fmt] that the file calls.

    Go strings are byte sequences and are modelled as [string]. Go's [int]
    is modelled as [Z]: the only integers are lengths of maps and copies
    of them, far below 2^63, and no arithmetic is done on them. A Go map
    is a [gmap]; maps are reference values, so they live in a heap, and
    so do the [Meta] structs that point to them. The read-write lock of
    [Meta] has no counterpart: calls are modelled one at a time. What the
    [log] package does with a line (time stamp, newline, the write) is
    outside the file; a call of [Output] is recorded as an event. *)

From Stdlib Require Import ZArith Ascii String List Lia.
From stdpp Require Import base tactics option list sorting gmap strings pretty fin_maps.

Local Open Scope Z_scope.

(** ** Values of type [interface{}] *)

(** The dynamic values the model covers: the nil interface, a [string],
    an [int], and a non-nil [error] made by [errors.New]. *)
Inductive value : Type :=
| VNil
| VString (s : string)
| VInt (n : Z)
| VError (msg : string).

#[global] Instance value_eq_dec : EqDecision value.
Proof. solve_decision. Defined.

(** [reflect.TypeOf(arg).String()] *)
Definition type_name (v : value) : string :=
  match v with
  | VNil => "<nil>"
  | VString _ => "string"
  | VInt _ => "int"
  | VError _ => "*errors.errorString"
  end.

(** [arg != nil && reflect.TypeOf(arg).Kind() == reflect.String] *)
Definition isString (v : value) : bool :=
  match v with
  | VString _ => true
  | _ => false
  end.

(** ** Package [fmt], the modelled fragment *)

(** [fmt] is Go's library, not part of the repository. The model covers
    [Sprint], [Sprintln], and [Sprintf] for the directives [%%], [%v],
    [%+v], [%s] and [%d] on the values above, with the library's reports
    for a wrong verb, a missing operand and operands left over. A format
    with any other directive (flags, width, precision, argument index,
    another verb) has no result in the model: [Sprintf] returns [None]. *)
Module fmt.

(** [printArg(arg, 'v')]: the default rendering. *)
Definition print_v (v : value) : string :=
  match v with
  | VNil => "<nil>"
  | VString s => s
  | VInt n => pretty n
  | VError msg => msg
  end.

(** [badVerb]: [%!verb(type=value)], or [%!verb(<nil>)] for nil. *)
Definition badVerb (verb : ascii) (v : value) : string :=
  match v with
  | VNil => "%!" +:+ String verb "(<nil>)"
  | _ => "%!" +:+ String verb ("(" +:+ type_name v +:+ "=" +:+ print_v v +:+ ")")
  end.

(** [printArg(arg, verb)] for the verbs [v], [s] and [d]. An [error] is
    printed through its [Error()] method under [v] and [s]; [None] marks
    the combinations outside the model. *)
Definition printArg (v : value) (verb : ascii) : option string :=
  match verb, v with
  | "v"%char, _ => Some (print_v v)
  | "s"%char, VString s => Some s
  | "s"%char, VError msg => Some msg
  | "s"%char, _ => Some (badVerb verb v)
  | "d"%char, VInt n => Some (pretty n)
  | "d"%char, VError _ => None
  | "d"%char, _ => Some (badVerb verb v)
  | _, _ => None
  end.

(** [missingArg]: [%!verb(MISSING)]. *)
Definition missingArg (verb : ascii) : string :=
  "%!" +:+ String verb "(MISSING)".

(** The operands left over, as [type=value] separated by commas. *)
Fixpoint extraArgs (a : list value) : string :=
  match a with
  | [] => ""
  | [x] => match x with VNil => "<nil>" | _ => type_name x +:+ "=" +:+ print_v x end
  | x :: a' =>
      match x with VNil => "<nil>" | _ => type_name x +:+ "=" +:+ print_v x end
      +:+ ", " +:+ extraArgs a'
  end.

(** The check after the format loop: [%!(EXTRA ...)] when operands are
    left over. *)
Definition extra (a : list value) : string :=
  match a with
  | [] => ""
  | _ => "%!(EXTRA " +:+ extraArgs a +:+ ")"
  end.

(** The verbs of the fragment. *)
Definition is_verb (c : ascii) : bool :=
  match c with
  | "v"%char | "s"%char | "d"%char => true
  | _ => false
  end.

(** One directive with verb [verb]: it prints the next operand, or
    reports that none is left; [k] goes on with the rest of the format. *)
Definition directive (verb : ascii) (a : list value)
    (k : list value → option string) : option string :=
  match a with
  | [] => (λ r, missingArg verb +:+ r) <$> k []
  | x :: a' => s ← printArg x verb; (λ r, s +:+ r) <$> k a'
  end.

(** [doPrintf]: the bytes up to the next ['%'] are copied; then one
    directive is processed ([%!(NOVERB)] when the format ends after the
    ['%']). [a] holds the operands not yet consumed. *)
Fixpoint doPrintf (format : string) (a : list value) : option string :=
  match format with
  | "" => Some (extra a)
  | String "%" "" => Some ("%!(NOVERB)" +:+ extra a)
  | String "%" (String "%" rest) => (String "%") <$> doPrintf rest a
  | String "%" (String "+" (String "v" rest)) => directive "v" a (doPrintf rest)
  | String "%" (String c rest) =>
      if is_verb c then directive c a (doPrintf rest) else None
  | String c rest => (String c) <$> doPrintf rest a
  end.

Definition Sprintf (format : string) (a : list value) : option string :=
  doPrintf format a.

(** [doPrint]: a space goes between two operands when neither is a
    string. [first] tells that no operand was printed yet. *)
Fixpoint doPrint (first prevString : bool) (a : list value) : string :=
  match a with
  | [] => ""
  | arg :: a' =>
      (if negb first && negb (isString arg) && negb prevString then " " else "")
      +:+ print_v arg +:+ doPrint false (isString arg) a'
  end.

Definition Sprint (a : list value) : string := doPrint true false a.

(** [doPrintln]: a space between all operands and a final newline. *)
Fixpoint doPrintln (first : bool) (a : list value) : string :=
  match a with
  | [] => String "010" ""
  | arg :: a' =>
      (if first then "" else " ") +:+ print_v arg +:+ doPrintln false a'
  end.

Definition Sprintln (a : list value) : string := doPrintln true a.

End fmt.

(** ** Outcomes of a call *)

(** Run-time faults: an index outside a slice (a run-time panic of Go),
    and the use of an address that holds nothing (no Go program makes
    one; the heap of the model is a partial map). *)
Inductive fault : Type :=
| IndexOutOfRange
| InvalidAddress.

(** A call returns, or ends the normal flow: [panic(msg)] raised by the
    program, a run-time fault, [os.Exit(code)], or a [fmt] directive
    outside the modelled fragment. *)
Inductive outcome (A : Type) : Type :=
| Ret (a : A)
| Panicked (msg : string)
| Faulted (f : fault)
| Exited (code : Z)
| Unmodelled.

Arguments Ret {A} a.
Arguments Panicked {A} msg.
Arguments Faulted {A} f.
Arguments Exited {A} code.
Arguments Unmodelled {A}.

Definition outcome_bind {A B} (m : outcome A) (k : A → outcome B) : outcome B :=
  match m with
  | Ret a => k a
  | Panicked msg => Panicked msg
  | Faulted f => Faulted f
  | Exited c => Exited c
  | Unmodelled => Unmodelled
  end.

(** A result of the [fmt] fragment as an outcome. *)
Definition of_fmt {A} (o : option A) : outcome A :=
  match o with
  | Some a => Ret a
  | None => Unmodelled
  end.

Definition faults {A} (o : outcome A) : Prop :=
  match o with
  | Faulted _ => True
  | _ => False
  end.

(** ** The metadata store *)

(** [type MetaEntry struct { value interface{}; order int }] *)
Record MetaEntry : Type := mkMetaEntry {
  value_of : value;
  order : Z
}.

#[global] Instance MetaEntry_eq_dec : EqDecision MetaEntry.
Proof. solve_decision. Defined.

(** [strings.Join] *)
Fixpoint strings_Join (elems : list string) (sep : string) : string :=
  match elems with
  | [] => ""
  | [x] => x
  | x :: rest => x +:+ sep +:+ strings_Join rest sep
  end.

(** The order in which [range] yields the entries of a map is not
    specified. A [range_order] is one choice of it: each map is
    enumerated as some permutation of its entries. *)
Record range_order : Type := mkRange {
  range :> gmap string MetaEntry → list (string * MetaEntry);
  range_perm : ∀ e, range e ≡ₚ map_to_list e
}.

Definition range_canonical : range_order :=
  {| range := map_to_list; range_perm := λ e, reflexivity _ |}.

Definition range_reversed : range_order :=
  {| range := λ e, reverse (map_to_list e);
     range_perm := λ e, reverse_Permutation _ |}.

(** The bodies of the methods of [Meta], on the contents of the map
    [m.entries] (a nil map reads as the empty map). *)
Module Entries.

(** [m.entries[k].value]; a missing key reads the zero entry. *)
Definition get (k : string) (e : gmap string MetaEntry) : value :=
  match e !! k with
  | Some vi => value_of vi
  | None => VNil
  end.

(** [vi, ok := m.entries[k]]: a present key keeps [vi.order], a new key
    gets [len(m.entries)]. *)
Definition set (k : string) (v : value) (e : gmap string MetaEntry)
    : gmap string MetaEntry :=
  match e !! k with
  | Some vi => <[k := mkMetaEntry v (order vi)]> e
  | None => <[k := mkMetaEntry v (Z.of_nat (size e))]> e
  end.

(** [delete(m.entries, k)] *)
Definition del (k : string) (e : gmap string MetaEntry) : gmap string MetaEntry :=
  delete k e.

(** [pts[vi.order] = fmt.Sprintf("%s=%+v", k, vi.value)]: the write
    faults when [vi.order] is not an index of [pts]. *)
Definition place (pts : list string) (kv : string * MetaEntry) : outcome (list string) :=
  outcome_bind (of_fmt (fmt.Sprintf "%s=%+v" [VString kv.1; value_of kv.2])) (λ s,
  if bool_decide (0 ≤ order kv.2 < Z.of_nat (length pts))
  then Ret (<[Z.to_nat (order kv.2) := s]> pts)
  else Faulted IndexOutOfRange).

(** [for k, vi := range m.entries { pts[vi.order] = ... }] *)
Fixpoint place_all (it : list (string * MetaEntry)) (pts : list string)
    : outcome (list string) :=
  match it with
  | [] => Ret pts
  | kv :: it' => outcome_bind (place pts kv) (place_all it')
  end.

(** [format] once the entries are enumerated as [it]; [n] is
    [len(m.entries)], the length of [pts := make([]string, n)]. *)
Definition format_range (it : list (string * MetaEntry)) (n : nat)
    (delim format : string) : outcome string :=
  if bool_decide (n = 0%nat) then Ret ""
  else
    outcome_bind (place_all it (replicate n "")) (λ pts,
    let s := strings_Join pts delim in
    if bool_decide (format = "") then Ret s
    else of_fmt (fmt.Sprintf format [VString s])).

Definition format (R : range_order) (delim format : string)
    (e : gmap string MetaEntry) : outcome string :=
  format_range (R e) (size e) delim format.

(** The loop of [copy]: [for k, v := range m.entries { entries[k] = v }]. *)
Definition copy (R : range_order) (e : gmap string MetaEntry) : gmap string MetaEntry :=
  foldl (λ acc kv, <[kv.1 := kv.2]> acc) ∅ (R e).

End Entries.

(** ** The heap *)

(** Addresses. A [*Meta] is the address of a [Meta] struct; the field
    [entries] of the struct is nil or the address of a map object. *)
Definition loc : Type := nat.

(** [type Meta struct { entries map[string]MetaEntry; mutex sync.RWMutex }];
    calls are modelled one at a time, so the lock has no state here. *)
Record Meta : Type := mkMeta {
  entries : option loc
}.

(** An [io.Writer]: standard output, or a writer of the caller. *)
Inductive writer : Type :=
| Stdout
| Writer (id : nat).

(** A [log.Logger]: its writer, its own prefix (always empty here) and
    its flags. The file reads the flags of a logger once, in [Copy], and
    never sets them; the logger is held by value. *)
Record Logger : Type := mkLogger {
  lg_out : writer;
  lg_prefix : string;
  lg_flags : Z
}.

(** One call [l.Output(calldepth, s)] of the [log] package. *)
Record event : Type := mkEvent {
  ev_logger : Logger;
  ev_calldepth : Z;
  ev_msg : string
}.

(** The state: the [Meta] structs and the map objects by address, the
    flags of the standard logger ([log.Flags()]), and the calls of
    [Output] made so far. *)
Record world : Type := mkWorld {
  metas : gmap loc Meta;
  maps : gmap loc (gmap string MetaEntry);
  std_flags : Z;
  written : list event
}.

Definition set_metas (f : gmap loc Meta → gmap loc Meta) (w : world) : world :=
  mkWorld (f (metas w)) (maps w) (std_flags w) (written w).

Definition set_maps
    (f : gmap loc (gmap string MetaEntry) → gmap loc (gmap string MetaEntry))
    (w : world) : world :=
  mkWorld (metas w) (f (maps w)) (std_flags w) (written w).

Definition add_written (ev : event) (w : world) : world :=
  mkWorld (metas w) (maps w) (std_flags w) (written w ++ [ev]).

(** Calls thread the world; the world reached when a call panics or exits
    is kept, since what was written stays written. *)
Definition M (A : Type) : Type := world → outcome A * world.

Definition ret {A} (a : A) : M A := λ w, (Ret a, w).

Definition bind {A B} (m : M A) (k : A → M B) : M B := λ w,
  match m w with
  | (Ret a, w') => k a w'
  | (Panicked msg, w') => (Panicked msg, w')
  | (Faulted f, w') => (Faulted f, w')
  | (Exited c, w') => (Exited c, w')
  | (Unmodelled, w') => (Unmodelled, w')
  end.

Definition lift {A} (o : outcome A) : M A := λ w, (o, w).

Notation "'let*' x := m 'in' k" := (bind m (λ x, k))
  (at level 10, x name, m at level 99, k at level 200).
Notation "m ;;; k" := (bind m (λ _, k))
  (at level 100, k at level 200, right associativity).

(** The contents of the map of the store at [m]; a nil map reads as empty. *)
Definition contents (w : world) (m : loc) : outcome (gmap string MetaEntry) :=
  match metas w !! m with
  | None => Faulted InvalidAddress
  | Some (mkMeta None) => Ret ∅
  | Some (mkMeta (Some a)) =>
      match maps w !! a with
      | Some e => Ret e
      | None => Faulted InvalidAddress
      end
  end.

(** The methods of [*Meta]; [m] is the address of the receiver. *)
Module Meta.

(** [func (m *Meta) get(k string) interface{}] *)
Definition get (m : loc) (k : string) : M value := λ w,
  (outcome_bind (contents w m) (λ e, Ret (Entries.get k e)), w).

(** [func (m *Meta) set(k string, v interface{})]: a nil map is replaced
    by a new map first; the map is then updated in place. *)
Definition set (m : loc) (k : string) (v : value) : M unit := λ w,
  match metas w !! m with
  | None => (Faulted InvalidAddress, w)
  | Some (mkMeta None) =>
      (* m.entries = make(map[string]MetaEntry) *)
      let a := fresh (dom (maps w)) in
      (Ret (), set_maps <[a := Entries.set k v ∅]> (set_metas <[m := mkMeta (Some a)]> w))
  | Some (mkMeta (Some a)) =>
      match maps w !! a with
      | Some e => (Ret (), set_maps <[a := Entries.set k v e]> w)
      | None => (Faulted InvalidAddress, w)
      end
  end.

(** [func (m *Meta) del(k string)]; [delete] on a nil map does nothing. *)
Definition del (m : loc) (k : string) : M unit := λ w,
  match metas w !! m with
  | None => (Faulted InvalidAddress, w)
  | Some (mkMeta None) => (Ret (), w)
  | Some (mkMeta (Some a)) =>
      match maps w !! a with
      | Some e => (Ret (), set_maps <[a := Entries.del k e]> w)
      | None => (Faulted InvalidAddress, w)
      end
  end.

(** [func (m *Meta) format(delim, format string) string] *)
Definition format (R : range_order) (m : loc) (delim format : string) : M string := λ w,
  (outcome_bind (contents w m) (Entries.format R delim format), w).

(** [func (m *Meta) copy() *Meta]: a new struct; its map is nil when the
    map of [m] is nil, and otherwise a new map filled entry by entry. *)
Definition copy (R : range_order) (m : loc) : M loc := λ w,
  match metas w !! m with
  | None => (Faulted InvalidAddress, w)
  | Some (mkMeta None) =>
      let n := fresh (dom (metas w)) in
      (Ret n, set_metas <[n := mkMeta None]> w)
  | Some (mkMeta (Some a)) =>
      match maps w !! a with
      | Some e =>
          let b := fresh (dom (maps w)) in
          let n := fresh (dom (metas w)) in
          (Ret n, set_metas <[n := mkMeta (Some b)]> (set_maps <[b := Entries.copy R e]> w))
      | None => (Faulted InvalidAddress, w)
      end
  end.

(** [&Meta{}] *)
Definition new : M loc := λ w,
  let n := fresh (dom (metas w)) in
  (Ret n, set_metas <[n := mkMeta None]> w).

End Meta.

(** A call that changes a store. *)
Inductive mutation : Type :=
| DoSet (k : string) (v : value)
| DoDel (k : string).

Definition apply_mutation (m : loc) (op : mutation) : M unit :=
  match op with
  | DoSet k v => Meta.set m k v
  | DoDel k => Meta.del m k
  end.

(** The calls [ops] made one after the other on the store at [m]. *)
Fixpoint run (m : loc) (ops : list mutation) : M unit :=
  match ops with
  | [] => ret ()
  | op :: ops' => apply_mutation m op ;;; run m ops'
  end.

(** The state at start-up, and the state after [m := &Meta{}], where
    [m] is address 0. *)
Definition empty_world : world := mkWorld ∅ ∅ 3 [].

Definition test_world : world :=
  (Meta.new empty_world).2.

(** ** The logger *)

(** [const defaultCalldepth = 3] *)
Definition defaultCalldepth : Z := 3.

(** [log.LstdFlags], the flags of the standard logger at start-up. *)
Definition LstdFlags : Z := 3.

(** [var fallback = log.New(os.Stdout, "", log.Flags())], read at package
    initialisation. *)
Definition fallback : Logger := mkLogger Stdout "" LstdFlags.

(** [type Log struct { *log.Logger; *Meta; out io.Writer; calldepth int }].
    No method of the file assigns to a field, so a [*Log] is modelled by the
    struct value, [None] standing for the nil pointer; the store it points
    to lives in the heap. *)
Record Log : Type := mkLog {
  log_Logger : Logger;
  log_Meta : loc;
  out : writer;
  calldepth : Z
}.

(** A Go [error]: nil, or an error whose [Error()] is the given message. *)
Definition error_arg (err : option string) : value :=
  match err with
  | None => VNil
  | Some msg => VError msg
  end.

(** The methods of [*Log]; the receiver [a] is [None] for the nil
    pointer. [Set_] stands for [Set]. *)
Module Log.

Definition newAdvanced (o : writer) (flags calldepth : Z) : M (option Log) :=
  let* m := Meta.new in
  ret (Some (mkLog (mkLogger o "" flags) m o calldepth)).

Definition New (o : writer) : M (option Log) := λ w,
  newAdvanced o (std_flags w) defaultCalldepth w.

Section WithRange.

Context (R : range_order).

Definition Copy (a : option Log) : M (option Log) :=
  match a with
  | None => ret None
  | Some l =>
      let* m := Meta.copy R (log_Meta l) in
      ret (Some (mkLog (mkLogger (out l) "" (lg_flags (log_Logger l))) m (out l)
                       defaultCalldepth))
  end.

Definition Set_ (a : option Log) (k : string) (v : value) : M (option Log) :=
  match a with
  | None => ret None
  | Some l => Meta.set (log_Meta l) k v ;;; ret a
  end.

Definition SetError (a : option Log) (err : option string) : M (option Log) :=
  let* s := lift (of_fmt (fmt.Sprintf "'%s'" [error_arg err])) in
  Set_ a "error" (VString s).

Definition With (a : option Log) (k : string) (v : value) : M (option Log) :=
  let* c := Copy a in Set_ c k v.

Definition WithError (a : option Log) (err : option string) : M (option Log) :=
  let* c := Copy a in SetError c err.

Definition prefix (a : option Log) : M string :=
  match a with
  | None => ret ""
  | Some l => Meta.format R (log_Meta l) " " "[%s]"
  end.

Definition addPrefix (a : option Log) (s : string) : M string :=
  let* prefix := prefix a in
  if bool_decide (prefix ≠ "") then ret (prefix +:+ " " +:+ s) else ret s.

Definition buildPrefixArgs (a : option Log) : M (list value) :=
  let* prefix := prefix a in
  if bool_decide (prefix ≠ "") then ret [VString prefix; VString " "] else ret [].

Definition Sprint (a : option Log) (v : list value) : M string :=
  let* args := buildPrefixArgs a in
  ret (fmt.Sprint (args ++ v)).

Definition Sprintf (a : option Log) (f : string) (v : list value) : M string :=
  let* f' := addPrefix a f in
  lift (of_fmt (fmt.Sprintf f' v)).

Definition Sprintln (a : option Log) (v : list value) : M string :=
  let* args := buildPrefixArgs a in
  ret (fmt.Sprintln (args ++ v)).

(** [fallback.Output(defaultCalldepth, s)] on the nil logger, else
    [a.Logger.Output(a.calldepth, s)]. *)
Definition output (a : option Log) (s : string) : M unit := λ w,
  match a with
  | None => (Ret (), add_written (mkEvent fallback defaultCalldepth s) w)
  | Some l => (Ret (), add_written (mkEvent (log_Logger l) (calldepth l) s) w)
  end.

Definition os_Exit {A} (code : Z) : M A := lift (Exited code).

Definition panic {A} (msg : string) : M A := lift (Panicked msg).

Definition Fatal (a : option Log) (v : list value) : M unit :=
  let* s := Sprint a v in output a s ;;; os_Exit 1.

Definition Fatalf (a : option Log) (f : string) (v : list value) : M unit :=
  let* s := Sprintf a f v in output a s ;;; os_Exit 1.

Definition Fatalln (a : option Log) (v : list value) : M unit :=
  let* s := Sprintln a v in output a s ;;; os_Exit 1.

Definition Panic (a : option Log) (v : list value) : M unit :=
  let* s := Sprint a v in output a s ;;; panic (fmt.Sprint v).

Definition Panicf (a : option Log) (f : string) (v : list value) : M unit :=
  let* s := Sprintf a f v in
  output a s ;;;
  let* msg := lift (of_fmt (fmt.Sprintf f v)) in
  panic msg.

Definition Panicln (a : option Log) (v : list value) : M unit :=
  let* s := Sprintln a v in output a s ;;; panic (fmt.Sprintln v).

Definition Print (a : option Log) (v : list value) : M unit :=
  let* s := Sprint a v in output a s.

Definition Printf (a : option Log) (f : string) (v : list value) : M unit :=
  let* s := Sprintf a f v in output a s.

Definition Println (a : option Log) (v : list value) : M unit :=
  let* s := Sprintln a v in output a s.

End WithRange.

End Log.

(** ** Notions used to state the properties *)

(** The effect of a mutation on the contents of a store. *)
Definition apply_entries (op : mutation) (e : gmap string MetaEntry)
    : gmap string MetaEntry :=
  match op with
  | DoSet k v => Entries.set k v e
  | DoDel k => Entries.del k e
  end.

(** The order numbers of a store are pairwise distinct. *)
Definition distinct_orders (e : gmap string MetaEntry) : Prop :=
  ∀ k1 k2 v1 v2, e !! k1 = Some v1 → e !! k2 = Some v2 →
    order v1 = order v2 → k1 = k2.

(** The order numbers of a store are below the number of its entries. *)
Definition orders_in_range (e : gmap string MetaEntry) : Prop :=
  ∀ k vi, e !! k = Some vi → 0 ≤ order vi < Z.of_nat (size e).

(** Invariant (a) of the data model: the order numbers are exactly
    [0 .. len-1]. *)
Definition dense (e : gmap string MetaEntry) : Prop :=
  distinct_orders e ∧ orders_in_range e.

(** The order by which the specification sorts the entries. *)
Definition by_order (x y : string * MetaEntry) : Prop := order x.2 ≤ order y.2.

#[global] Instance by_order_dec : RelDecision by_order.
Proof. intros x y. unfold by_order. apply _. Defined.

(** ["key=value"], the value in its default rendering. *)
Definition render (kv : string * MetaEntry) : string :=
  kv.1 +:+ "=" +:+ fmt.print_v (value_of kv.2).

(** [format] as the specification words it: nothing for the empty store;
    otherwise the rendered entries, sorted by their order numbers, joined
    and substituted into the wrapper. *)
Definition format_spec (delim wrapper : string) (e : gmap string MetaEntry)
    : outcome string :=
  if bool_decide (e = ∅) then Ret ""
  else
    let s := strings_Join (render <$> merge_sort by_order (map_to_list e)) delim in
    if bool_decide (wrapper = "") then Ret s
    else of_fmt (fmt.Sprintf wrapper [VString s]).

(** No byte of [s] is ['%']. *)
Fixpoint no_percent (s : string) : bool :=
  match s with
  | "" => true
  | String c s' => negb (bool_decide (c = "%"%char)) && no_percent s'
  end.

(** Two stores share neither their struct nor their map. *)
Definition disjoint_stores (w : world) (m n : loc) : Prop :=
  m ≠ n ∧
  ∀ a, entries <$> metas w !! m = Some (Some a) →
       entries <$> metas w !! n ≠ Some (Some a).

(** [set] called once for each pair of [kvs], in order. *)
Definition set_all (kvs : list (string * value)) (e : gmap string MetaEntry)
    : gmap string MetaEntry :=
  foldl (λ acc kv, Entries.set kv.1 kv.2 acc) e kvs.

(** Every store of the heap satisfies the invariant of the order numbers. *)
Definition all_dense (w : world) : Prop :=
  ∀ m e, contents w m = Ret e → dense e.

(** After a copy, a mutation is made on the original or on the copy. *)
Inductive target : Type :=
| Original
| Copied.

#[global] Instance target_eq_dec : EqDecision target.
Proof. solve_decision. Defined.

(** A run of mutations, each on the original [m] or on its copy [n]. *)
Fixpoint run_on (m n : loc) (ops : list (target * mutation)) : M unit :=
  match ops with
  | [] => ret ()
  | (t, op) :: ops' =>
      apply_mutation (match t with Original => m | Copied => n end) op ;;;
      run_on m n ops'
  end.

(** The mutations of [ops] that are made on [t]. *)
Definition ops_of (t : target) (ops : list (target * mutation)) : list mutation :=
  omap (λ tp, if decide (tp.1 = t) then Some tp.2 else None) ops.

(** ** Scenarios *)

(** The store of the specification's example: foo=bar with order 0 and t=7
    with order 1. *)
Definition spec_example_entries : gmap string MetaEntry :=
  {[ "foo" := mkMetaEntry (VString "bar") 0; "t" := mkMetaEntry (VInt 7) 1 ]}.

(** The store of [TestMeta] when it is copied. *)
Definition TestMeta_world : world :=
  (run 0%nat [DoSet "foo" (VString "bar"); DoSet "t" (VInt 7);
              DoSet "foo" (VString "baz")] test_world).2.

(** A logger as [TestLog] builds it: flags 0, metadata foo=bar, key=7. *)
Definition TestLog_logger : Log :=
  mkLog (mkLogger (Writer 0) "" 0) 0%nat (Writer 0) defaultCalldepth.

Definition TestLog_world : world :=
  (run 0%nat [DoSet "foo" (VString "bar"); DoSet "key" (VInt 7)] test_world).2.

Definition TestLog_entries : gmap string MetaEntry :=
  set_all [("foo", VString "bar"); ("key", VInt 7)] ∅.

(** A deletion that leaves a gap: the surviving entry has order 1 in a
    store of one entry. *)
Definition gap_ops : list mutation :=
  [DoSet "a" (VInt 1); DoSet "b" (VInt 2); DoDel "a"].

(** A deletion followed by an insertion: two entries with order 1. *)
Definition collide_ops : list mutation :=
  [DoSet "a" (VInt 1); DoSet "b" (VInt 2); DoDel "a"; DoSet "c" (VInt 3)].

(** A store whose one value holds a formatting verb. *)
Definition verb_world : world :=
  (run 0%nat [DoSet "k" (VString "%s")] test_world).2.

(** * Properties *)

(** ** Runs of the model on the scenarios of the test suite *)

Example fmt_Sprintf_test1 :
  fmt.Sprintf "%s %d" [VString "foo"; VInt 7] = Some "foo 7".
Proof. reflexivity. Qed.

Example fmt_Sprint_test1 :
  fmt.Sprint [VString "foo"; VString "bar"] = "foobar".
Proof. reflexivity. Qed.

Example fmt_Sprint_test2 :
  fmt.Sprint [VInt 1; VInt (-2); VString "x"; VInt 3] = "1 -2x3".
Proof. reflexivity. Qed.

Example fmt_Sprintln_test1 :
  fmt.Sprintln [VString "foo"; VString "bar"] = "foo bar" +:+ String "010" "".
Proof. reflexivity. Qed.

Example fmt_Sprintf_test2 :
  fmt.Sprintf "a%%b%" [VInt 1; VNil] = Some "a%b%!(NOVERB)%!(EXTRA int=1, <nil>)".
Proof. reflexivity. Qed.

Example TestMeta_format :
  ((let* m := Meta.new in
   Meta.set m "foo" (VString "bar") ;;;
   Meta.del m "foo" ;;;
   Meta.set m "foo" (VString "bar") ;;;
   Meta.set m "t" (VInt 7) ;;;
   Meta.format range_canonical m ", " "*%s*") empty_world).1 = Ret "*foo=bar, t=7*".
Proof. vm_compute. reflexivity. Qed.

(** The scenario of [TestLog], without time stamps. *)
Example TestLog_print :
  ((let* log := Log.newAdvanced (Writer 0) 0 defaultCalldepth in
    Log.Set_ log "foo" (VString "bar") ;;;
    Log.Set_ log "key" (VInt 7) ;;;
    let* log2 := Log.With range_canonical log "foo" (VString "baz") in
    Log.SetError log (Some "bad") ;;;
    let* s1 := Log.Sprint range_canonical log [VString "test"] in
    let* s2 := Log.Sprint range_canonical log2 [VString "test"] in
    ret (s1, s2)) empty_world).1
  = Ret ("[foo=bar key=7 error='bad'] test", "[foo=baz key=7] test").
Proof. vm_compute. reflexivity. Qed.

(** The scenario of [TestLogNilSafe]. *)
Example TestLogNilSafe :
  (Log.Sprint range_canonical None [VString "foo"; VString "bar"] empty_world).1
    = Ret "foobar" ∧
  (Log.Sprintf range_canonical None "%s %d" [VString "foo"; VInt 7] empty_world).1
    = Ret "foo 7" ∧
  (Log.Sprintln range_canonical None [VString "foo"; VString "bar"] empty_world).1
    = Ret ("foo bar" +:+ String "010" "") ∧
  (Log.Panicf range_canonical None "foo" [] empty_world).1 = Panicked "foo" ∧
  (Log.SetError None (Some "foo") empty_world).1 = Ret None.
Proof. vm_compute. done. Qed.

(** ** Strings and the [fmt] fragment *)

(** [+:+] does not unfold under [simpl]; its two equations. *)
Lemma append_cons (c : ascii) (s t : string) : String c s +:+ t = String c (s +:+ t).
Proof. reflexivity. Qed.

Lemma append_nil_l (s : string) : "" +:+ s = s.
Proof. reflexivity. Qed.

Lemma append_nil_r (s : string) : s +:+ "" = s.
Proof. induction s as [|c s IH]; [done|]. by rewrite append_cons, IH. Qed.

(** The two formats that [format] and [prefix] use. *)
Lemma Sprintf_entry k v :
  fmt.Sprintf "%s=%+v" [VString k; v] = Some (k +:+ "=" +:+ fmt.print_v v).
Proof. cbn. by rewrite append_nil_r. Qed.

Lemma Sprintf_brackets s :
  fmt.Sprintf "[%s]" [VString s] = Some ("[" +:+ s +:+ "]").
Proof. reflexivity. Qed.

(** A byte other than ['%'] is copied. *)
Lemma doPrintf_byte c rest a :
  c ≠ "%"%char →
  fmt.doPrintf (String c rest) a = String c <$> fmt.doPrintf rest a.
Proof.
  intros Hc. destruct c as [[] [] [] [] [] [] [] []]; try reflexivity. done.
Qed.

(** Text without ['%'] in front of a format comes out in front of the
    result: the scan for the first directive starts after it with the
    same operands. *)
Lemma doPrintf_literal p f a :
  no_percent p = true →
  fmt.doPrintf (p +:+ f) a = (λ r, p +:+ r) <$> fmt.doPrintf f a.
Proof.
  induction p as [|c p IH]; intros Hp.
  - rewrite append_nil_l. by destruct (fmt.doPrintf f a).
  - simpl in Hp. apply andb_prop in Hp as [Hc Hp].
    apply negb_true_iff, bool_decide_eq_false in Hc.
    rewrite append_cons, doPrintf_byte, IH by done.
    by destruct (fmt.doPrintf f a).
Qed.

(** After a string operand [Sprint] goes on as from the start: no space
    is put before the next operand. *)
Lemma doPrint_after_string first v :
  fmt.doPrint first true v = fmt.doPrint true false v.
Proof.
  destruct v as [|x v]; [done|]. simpl.
  by rewrite andb_false_r.
Qed.

Lemma Sprint_after_string_args p v :
  fmt.Sprint (VString p :: VString " " :: v) = p +:+ " " +:+ fmt.Sprint v.
Proof.
  unfold fmt.Sprint. cbn [fmt.doPrint isString negb andb fmt.print_v].
  rewrite !append_nil_l. by rewrite (doPrint_after_string false).
Qed.

Lemma Sprintf_quoted err :
  ∃ s, fmt.Sprintf "'%s'" [error_arg err] = Some s.
Proof. destruct err; eexists; reflexivity. Qed.

(** ** The store: [set] and the order numbers *)

Lemma set_present k v vi (e : gmap string MetaEntry) :
  e !! k = Some vi → Entries.set k v e = <[k := mkMetaEntry v (order vi)]> e.
Proof. intros He. unfold Entries.set. by rewrite He. Qed.

Lemma set_absent k v (e : gmap string MetaEntry) :
  e !! k = None → Entries.set k v e = <[k := mkMetaEntry v (Z.of_nat (size e))]> e.
Proof. intros He. unfold Entries.set. by rewrite He. Qed.

Lemma set_absent_size k v (e : gmap string MetaEntry) :
  e !! k = None → size (Entries.set k v e) = S (size e).
Proof. intros He. rewrite set_absent by done. by apply map_size_insert_None. Qed.

(** Distinct new keys get consecutive order numbers, counted from the
    number of entries present before. *)
Lemma set_all_distinct kvs (e : gmap string MetaEntry) :
  NoDup kvs.*1 →
  (∀ k, k ∈ kvs.*1 → e !! k = None) →
  size (set_all kvs e) = (size e + length kvs)%nat ∧
  (∀ k, k ∉ kvs.*1 → set_all kvs e !! k = e !! k) ∧
  (∀ (i : nat) k v, kvs !! i = Some (k, v) →
     set_all kvs e !! k = Some (mkMetaEntry v (Z.of_nat (size e + i)))).
Proof.
  revert e. induction kvs as [|[k0 v0] kvs IH]; intros e Hnd Hfresh.
  { simpl. split_and!; [lia | done | intros i k v Hi; by rewrite lookup_nil in Hi]. }
  rewrite fmap_cons in Hnd. apply NoDup_cons in Hnd as [Hk0 Hnd].
  assert (He0 : e !! k0 = None) by (apply Hfresh; rewrite fmap_cons; left).
  destruct (IH (Entries.set k0 v0 e) Hnd) as (Hsz & Hother & Hat).
  { intros k Hk. rewrite set_absent by done. rewrite lookup_insert_ne.
    - apply Hfresh. rewrite fmap_cons. by right.
    - intros ->. done. }
  rewrite set_absent_size in Hsz, Hat by done.
  change (set_all ((k0, v0) :: kvs) e) with (set_all kvs (Entries.set k0 v0 e)).
  split_and!.
  - rewrite Hsz. simpl. lia.
  - intros k Hk. rewrite fmap_cons, not_elem_of_cons in Hk. destruct Hk as [Hne Hk].
    rewrite Hother by done. rewrite set_absent by done. by rewrite lookup_insert_ne.
  - intros [|i] k v Hi; simpl in Hi.
    + injection Hi as -> ->. rewrite Hother by done.
      rewrite set_absent by done. rewrite lookup_insert_eq. do 2 f_equal. lia.
    + rewrite (Hat i k v Hi). do 2 f_equal. lia.
Qed.

Lemma contents_inv w m e :
  contents w m = Ret e →
  (metas w !! m = Some (mkMeta None) ∧ e = ∅) ∨
  (∃ a, metas w !! m = Some (mkMeta (Some a)) ∧ maps w !! a = Some e).
Proof.
  unfold contents. destruct (metas w !! m) as [[[a|]]|] eqn:Hm; [| |done].
  - destruct (maps w !! a) as [e'|] eqn:Ha; [|done].
    intros [= ->]. right. eauto.
  - intros [= <-]. by left.
Qed.

(** A mutation on the store at [m] returns, changes the contents of [m]
    as [apply_entries] says, and leaves every store disjoint from [m]
    with its contents and still disjoint from [m]. *)
Lemma apply_mutation_frame w m op e :
  contents w m = Ret e →
  ∃ w', apply_mutation m op w = (Ret (), w') ∧
        contents w' m = Ret (apply_entries op e) ∧
        written w' = written w ∧
        ∀ n e', disjoint_stores w m n → contents w n = Ret e' →
                contents w' n = Ret e' ∧ disjoint_stores w' m n.
Proof.
  intros Hm. apply contents_inv in Hm as [[Hm ->]|(a & Hm & Ha)].
  - destruct op as [k v|k]; simpl; unfold Meta.set, Meta.del; rewrite Hm.
    + eexists. split; [done|]. split_and!.
      * unfold contents. simpl. rewrite lookup_insert_eq. simpl. by rewrite lookup_insert_eq.
      * done.
      * intros n e' [Hne Hdis] Hn. split.
        -- apply contents_inv in Hn as [[Hn ->]|(b & Hn & Hb)];
             unfold contents; simpl; rewrite lookup_insert_ne by done; rewrite Hn; [done|].
           rewrite lookup_insert_ne; [by rewrite Hb|].
           intros <-. apply (is_fresh (dom (maps w))). apply elem_of_dom. eauto.
        -- split; [done|]. simpl. intros b. rewrite lookup_insert_eq. simpl.
           intros [= <-]. rewrite lookup_insert_ne by done.
           apply contents_inv in Hn as [[Hn ->]|(b & Hn & Hb)]; rewrite Hn; simpl; [done|].
           intros [= ->]. apply (is_fresh (dom (maps w))). apply elem_of_dom. eauto.
    + eexists. split; [done|]. split_and!.
      * unfold contents. simpl. rewrite Hm. unfold Entries.del. by rewrite delete_empty.
      * done.
      * done.
  - assert (Hframe : ∀ e1 n e', disjoint_stores w m n → contents w n = Ret e' →
        contents (set_maps <[a := e1]> w) n = Ret e' ∧
        disjoint_stores (set_maps <[a := e1]> w) m n).
    { intros e1 n e' [Hne Hdis] Hn. split; [|done].
      apply contents_inv in Hn as [[Hn ->]|(b & Hn & Hb)];
        unfold contents; simpl; rewrite Hn; [done|].
      rewrite lookup_insert_ne; [by rewrite Hb|].
      intros <-. apply (Hdis a); [by rewrite Hm | by rewrite Hn]. }
    destruct op as [k v|k]; simpl; unfold Meta.set, Meta.del; rewrite Hm, Ha;
      (eexists; split; [done|]; split_and!; [|done|by apply Hframe]);
      unfold contents; simpl; rewrite Hm; by rewrite lookup_insert_eq.
Qed.

Lemma run_frame w m ops e :
  contents w m = Ret e →
  ∃ w', run m ops w = (Ret (), w') ∧
        contents w' m = Ret (foldl (λ acc op, apply_entries op acc) e ops) ∧
        written w' = written w ∧
        ∀ n e', disjoint_stores w m n → contents w n = Ret e' →
                contents w' n = Ret e' ∧ disjoint_stores w' m n.
Proof.
  revert w e. induction ops as [|op ops IH]; intros w e Hm.
  { exists w. by split_and!. }
  destruct (apply_mutation_frame w m op e Hm) as (w1 & Hop & Hm1 & Hw1 & Hfr1).
  destruct (IH w1 _ Hm1) as (w2 & Hrun & Hm2 & Hw2 & Hfr2).
  exists w2. split_and!.
  - simpl. unfold bind. by rewrite Hop.
  - done.
  - congruence.
  - intros n e' Hdis Hn. destruct (Hfr1 n e' Hdis Hn) as [Hn1 Hdis1]. by apply Hfr2.
Qed.

Lemma disjoint_stores_sym w m n : disjoint_stores w m n → disjoint_stores w n m.
Proof.
  intros [Hne Hdis]. split; [done|]. intros a Hn Hm. by apply (Hdis a).
Qed.

(** ** Placement by order number *)

Lemma place_eq pts kv :
  Entries.place pts kv =
  if bool_decide (0 ≤ order kv.2 < Z.of_nat (length pts))
  then Ret (<[Z.to_nat (order kv.2) := render kv]> pts)
  else Faulted IndexOutOfRange.
Proof. unfold Entries.place. by rewrite Sprintf_entry. Qed.

Lemma place_length pts kv pts' :
  Entries.place pts kv = Ret pts' → length pts' = length pts.
Proof.
  rewrite place_eq. case_bool_decide; [|done]. intros [= <-]. apply length_insert.
Qed.

(** Two placements into different slots commute, also when one of them
    faults. *)
Lemma place_all_swap x y it pts :
  order x.2 ≠ order y.2 →
  Entries.place_all (x :: y :: it) pts = Entries.place_all (y :: x :: it) pts.
Proof.
  intros Hxy. simpl. rewrite !place_eq.
  destruct (bool_decide (0 ≤ order x.2 < Z.of_nat (length pts))) eqn:Hx;
    destruct (bool_decide (0 ≤ order y.2 < Z.of_nat (length pts))) eqn:Hy;
    simpl; rewrite ?place_eq, ?length_insert, ?Hx, ?Hy; simpl; try done.
  rewrite list_insert_insert_ne; [done|].
  apply bool_decide_eq_true in Hx, Hy. lia.
Qed.

(** With pairwise distinct order numbers the placement does not depend
    on the enumeration. *)
Lemma place_all_Permutation it1 it2 pts :
  it1 ≡ₚ it2 →
  NoDup ((λ kv, order kv.2) <$> it1) →
  Entries.place_all it1 pts = Entries.place_all it2 pts.
Proof.
  intros Hp. revert pts.
  induction Hp as [|x it1 it2 Hp IH|x y it|it1 it2 it3 Hp1 IH1 Hp2 IH2];
    intros pts Hnd.
  - done.
  - simpl. destruct (Entries.place pts x); simpl; [|done..].
    apply IH. rewrite fmap_cons in Hnd. by apply NoDup_cons in Hnd as [_ ?].
  - apply place_all_swap. rewrite !fmap_cons in Hnd.
    apply NoDup_cons in Hnd as [Hy _]. rewrite not_elem_of_cons in Hy.
    intros Heq. by destruct Hy as [Hy _].
  - rewrite IH1 by done. apply IH2. by rewrite <-Hp1.
Qed.

(** The entries of a store with pairwise distinct order numbers, however
    enumerated, have pairwise distinct order numbers. *)
Lemma distinct_orders_NoDup (e : gmap string MetaEntry) it :
  distinct_orders e → it ≡ₚ map_to_list e →
  NoDup ((λ kv, order kv.2) <$> it).
Proof.
  intros Hd Hp. rewrite Hp. apply NoDup_fmap_2_strong; [|apply NoDup_map_to_list].
  intros [k1 v1] [k2 v2] H1 H2 Ho. simpl in Ho.
  apply elem_of_map_to_list in H1, H2.
  assert (k1 = k2) as -> by eauto. congruence.
Qed.

Lemma format_range_Permutation it1 it2 n delim wrapper :
  it1 ≡ₚ it2 →
  NoDup ((λ kv, order kv.2) <$> it1) →
  Entries.format_range it1 n delim wrapper = Entries.format_range it2 n delim wrapper.
Proof.
  intros Hp Hnd. unfold Entries.format_range.
  by rewrite (place_all_Permutation it1 it2).
Qed.

(** Placing entries whose order numbers count up from the number of slots
    already filled fills the slots from left to right. *)
Lemma place_all_in_order it done_ :
  (λ kv, order kv.2) <$> it = seqZ (Z.of_nat (length done_)) (Z.of_nat (length it)) →
  Entries.place_all it (done_ ++ replicate (length it) "") = Ret (done_ ++ (render <$> it)).
Proof.
  revert done_. induction it as [|x it IH]; intros done_ Ho.
  { done. }
  simpl. rewrite place_eq.
  rewrite fmap_cons, seqZ_cons in Ho by (simpl; lia).
  injection Ho as Hx Ho.
  rewrite bool_decide_eq_true_2; last first.
  { rewrite length_app. simpl. lia. }
  simpl. rewrite Hx, Nat2Z.id.
  replace (length done_) with (length done_ + 0)%nat at 1 by lia.
  rewrite insert_app_r. simpl.
  specialize (IH (done_ ++ [render x])).
  rewrite <-!app_assoc in IH. simpl in IH. apply IH.
  rewrite length_app. simpl. rewrite Ho. f_equal; lia.
Qed.

(** A strictly increasing list of [n] integers, all in [a .. a+n-1], is
    [a, a+1, ..., a+n-1]. *)
Lemma sorted_range_seqZ (l : list Z) a :
  StronglySorted Z.lt l →
  (∀ x, x ∈ l → a ≤ x < a + Z.of_nat (length l)) →
  l = seqZ a (Z.of_nat (length l)).
Proof.
  intros Hs. revert a. induction Hs as [|x l Hs IH Hx]; intros a Hr.
  { done. }
  rewrite Forall_forall in Hx.
  assert (Hl : l = seqZ (a + 1) (Z.of_nat (length l))).
  { apply IH. intros y Hy. specialize (Hx y Hy).
    assert (Hxa := Hr x ltac:(left)). assert (Hya := Hr y ltac:(by right)).
    simpl in *. lia. }
  assert (x = a) as ->.
  { assert (Hxa := Hr x ltac:(left)). simpl in Hxa.
    destruct l as [|y l]; [simpl in *; lia|].
    rewrite seqZ_cons in Hl by (simpl; lia). injection Hl as Hy _.
    specialize (Hx y ltac:(left)). lia. }
  rewrite seqZ_cons by (simpl; lia). f_equal.
  rewrite Hl at 1. f_equal; simpl; lia.
Qed.

(** An entry whose order number is not below the number of slots makes
    the placement fault, wherever the enumeration meets it. *)
Lemma place_all_out_of_range it pts kv :
  kv ∈ it → ¬ (0 ≤ order kv.2 < Z.of_nat (length pts)) →
  Entries.place_all it pts = Faulted IndexOutOfRange.
Proof.
  intros Hin Hout. revert pts Hout.
  induction it as [|x it IH]; intros pts Hout; [by apply elem_of_nil in Hin|].
  simpl. destruct (Entries.place pts x) as [pts'| | | |] eqn:Hx; simpl.
  - apply elem_of_cons in Hin as [->|Hin].
    + rewrite place_eq in Hx. by rewrite bool_decide_eq_false_2 in Hx.
    + apply IH; [done|]. by rewrite (place_length pts x pts').
  - rewrite place_eq in Hx. by case_bool_decide.
  - rewrite place_eq in Hx. case_bool_decide; congruence.
  - rewrite place_eq in Hx. by case_bool_decide.
  - rewrite place_eq in Hx. by case_bool_decide.
Qed.

Lemma format_gap_faults R delim wrapper (e : gmap string MetaEntry) k vi :
  e !! k = Some vi → Z.of_nat (size e) ≤ order vi →
  Entries.format R delim wrapper e = Faulted IndexOutOfRange.
Proof.
  intros Hk Hgap. unfold Entries.format, Entries.format_range.
  rewrite bool_decide_eq_false_2; last first.
  { rewrite map_size_empty_iff. intros ->. by rewrite lookup_empty in Hk. }
  rewrite (place_all_out_of_range _ _ (k, vi)); [done | |].
  - rewrite (range_perm R). by apply elem_of_map_to_list.
  - rewrite length_replicate. simpl. lia.
Qed.

Lemma by_order_trans : Transitive by_order.
Proof. intros x y z. unfold by_order. lia. Qed.

Lemma by_order_total : Total by_order.
Proof. intros x y. unfold by_order. lia. Qed.

Lemma sorted_by_order_strict (l : list (string * MetaEntry)) :
  StronglySorted by_order l →
  NoDup ((λ kv, order kv.2) <$> l) →
  StronglySorted Z.lt ((λ kv, order kv.2) <$> l).
Proof.
  induction 1 as [|x l Hs IH Hx]; intros Hnd; [constructor|].
  rewrite fmap_cons in *. apply NoDup_cons in Hnd as [Hnx Hnd].
  constructor; [by apply IH|].
  rewrite Forall_fmap. rewrite Forall_forall in Hx |- *.
  intros y Hy. specialize (Hx y Hy). unfold by_order in Hx. simpl.
  assert (order x.2 ≠ order y.2).
  { intros Heq. apply Hnx. rewrite Heq.
    by apply (list_elem_of_fmap_2 (λ kv : string * MetaEntry, order kv.2)). }
  lia.
Qed.

(** In a dense store the entries sorted by order number carry the order
    numbers [0, 1, ..., len-1]. *)
Lemma dense_sorted_orders (e : gmap string MetaEntry) :
  dense e →
  (λ kv, order kv.2) <$> merge_sort by_order (map_to_list e)
  = seqZ 0 (Z.of_nat (size e)).
Proof.
  intros [Hd Hr].
  set (l := merge_sort by_order (map_to_list e)).
  assert (Hp : l ≡ₚ map_to_list e) by apply merge_sort_Permutation.
  assert (Hlen : length ((λ kv : string * MetaEntry, order kv.2) <$> l) = size e).
  { by rewrite length_fmap, Hp, length_map_to_list. }
  rewrite <-Hlen. apply sorted_range_seqZ.
  - apply sorted_by_order_strict.
    + apply StronglySorted_merge_sort; [apply by_order_trans | apply by_order_total].
    + by apply (distinct_orders_NoDup e).
  - intros x Hx. apply list_elem_of_fmap in Hx as ([k vi] & -> & Hkv).
    rewrite Hp in Hkv. apply elem_of_map_to_list in Hkv.
    rewrite Hlen. simpl. specialize (Hr k vi Hkv). lia.
Qed.

(** On a dense store the placement by slots is the sort by order. *)
Lemma format_dense R delim wrapper (e : gmap string MetaEntry) :
  dense e →
  Entries.format R delim wrapper e = format_spec delim wrapper e.
Proof.
  intros Hdense. unfold Entries.format, format_spec, Entries.format_range.
  destruct (decide (e = ∅)) as [->|Hne].
  { by rewrite map_size_empty, !bool_decide_eq_true_2. }
  rewrite (bool_decide_eq_false_2 (e = ∅)) by done.
  rewrite bool_decide_eq_false_2 by (by rewrite map_size_empty_iff).
  set (l := merge_sort by_order (map_to_list e)).
  assert (Hp : R e ≡ₚ l).
  { rewrite (range_perm R). symmetry. apply merge_sort_Permutation. }
  rewrite (place_all_Permutation (R e) l); [|done|]; last first.
  { apply (distinct_orders_NoDup e); [apply Hdense | apply range_perm]. }
  assert (Hlen : length l = size e).
  { unfold l. by rewrite merge_sort_Permutation, length_map_to_list. }
  rewrite <-Hlen.
  assert (Hplace := place_all_in_order l []). simpl in Hplace.
  rewrite Hplace; [done|].
  rewrite Hlen. by apply dense_sorted_orders.
Qed.

(** ** [copy], and the invariant of the order numbers *)

Lemma foldl_insert_union (l : list (string * MetaEntry)) (acc : gmap string MetaEntry) :
  NoDup l.*1 →
  foldl (λ acc kv, <[kv.1 := kv.2]> acc) acc l = list_to_map l ∪ acc.
Proof.
  revert acc. induction l as [|[k v] l IH]; intros acc Hnd.
  { simpl. by rewrite (left_id_L ∅ (∪)). }
  rewrite fmap_cons in Hnd. apply NoDup_cons in Hnd as [Hk Hnd]. simpl in Hk.
  cbn [foldl list_to_map foldr fst snd uncurry].
  rewrite IH by done. rewrite <-insert_union_l.
  symmetry. apply insert_union_r. by apply not_elem_of_list_to_map_1.
Qed.

(** The loop of [copy] rebuilds the map, whatever the enumeration. *)
Lemma Entries_copy_eq (R : range_order) (e : gmap string MetaEntry) :
  Entries.copy R e = e.
Proof.
  unfold Entries.copy.
  assert (Hnd : NoDup (R e).*1).
  { rewrite (range_perm R). apply NoDup_fst_map_to_list. }
  rewrite foldl_insert_union by done. rewrite (right_id_L ∅ (∪)).
  rewrite (list_to_map_proper (R e) (map_to_list e)) by (done || apply range_perm).
  apply list_to_map_to_list.
Qed.

(** [copy] returns the address of a new store with the contents of the
    original, disjoint from the original, and leaves every store as it
    was. *)
Lemma copy_spec R w m e :
  contents w m = Ret e →
  ∃ n w', Meta.copy R m w = (Ret n, w') ∧
          contents w' n = Ret e ∧
          contents w' m = Ret e ∧
          disjoint_stores w' m n ∧
          written w' = written w ∧
          metas w !! n = None ∧
          ∀ m' e', contents w m' = Ret e' → contents w' m' = Ret e'.
Proof.
  intros Hm.
  assert (Hfresh_meta : metas w !! fresh (dom (metas w)) = None).
  { apply not_elem_of_dom, is_fresh. }
  assert (Hfresh_map : maps w !! fresh (dom (maps w)) = None).
  { apply not_elem_of_dom, is_fresh. }
  apply contents_inv in Hm as [[Hm ->]|(a & Hm & Ha)]; unfold Meta.copy; rewrite Hm.
  - eexists _, _. split; [done|].
    assert (Hne : fresh (dom (metas w)) ≠ m) by (intros Heq; congruence).
    split_and!; try done.
    + unfold contents. simpl. by rewrite lookup_insert_eq.
    + unfold contents. simpl. rewrite lookup_insert_ne by done. by rewrite Hm.
    + split; [done|]. simpl. intros a. rewrite lookup_insert_ne by done.
      by rewrite Hm.
    + intros m' e' Hm'. unfold contents in *. simpl.
      rewrite lookup_insert_ne; [done|]. intros <-. by rewrite Hfresh_meta in Hm'.
  - rewrite Ha. eexists _, _. split; [done|].
    assert (Hne : fresh (dom (metas w)) ≠ m) by (intros Heq; congruence).
    assert (Hnea : fresh (dom (maps w)) ≠ a) by (intros Heq; congruence).
    split_and!; try done.
    + unfold contents. simpl. rewrite lookup_insert_eq. simpl.
      by rewrite lookup_insert_eq, Entries_copy_eq.
    + unfold contents. simpl. rewrite lookup_insert_ne by done. rewrite Hm.
      rewrite lookup_insert_ne by done. by rewrite Ha.
    + split; [done|]. simpl. intros b. rewrite lookup_insert_ne by done.
      rewrite Hm. simpl. intros [= <-]. rewrite lookup_insert_eq. simpl. congruence.
    + intros m' e' Hm'. apply contents_inv in Hm' as [[Hm' ->]|(b & Hm' & Hb)];
        unfold contents; simpl.
      * rewrite lookup_insert_ne by (intros <-; congruence). by rewrite Hm'.
      * rewrite lookup_insert_ne by (intros <-; congruence). rewrite Hm'.
        rewrite lookup_insert_ne by (intros <-; congruence). by rewrite Hb.
Qed.

Lemma dense_empty : dense ∅.
Proof. split; intros k; intros; by rewrite lookup_empty in *. Qed.

(** [set] keeps the invariant: a present key keeps its number, a new key
    gets the number [len], which no entry has. *)
Lemma set_dense k v (e : gmap string MetaEntry) :
  dense e → dense (Entries.set k v e).
Proof.
  intros [Hd Hr]. destruct (e !! k) as [vi|] eqn:Hk.
  - rewrite (set_present k v vi) by done.
    assert (Hsz : size (<[k := mkMetaEntry v (order vi)]> e) = size e).
    { by apply map_size_insert_Some. }
    split.
    + intros k1 k2 v1 v2 H1 H2 Ho.
      apply lookup_insert_Some in H1 as [[<- <-]|[Hne1 H1]];
        apply lookup_insert_Some in H2 as [[<- <-]|[Hne2 H2]]; simpl in Ho; eauto.
    + intros k1 v1 H1. rewrite Hsz.
      apply lookup_insert_Some in H1 as [[<- <-]|[Hne1 H1]]; simpl; eauto.
  - rewrite set_absent by done.
    assert (Hsz : size (<[k := mkMetaEntry v (Z.of_nat (size e))]> e) = S (size e)).
    { by apply map_size_insert_None. }
    split.
    + intros k1 k2 v1 v2 H1 H2 Ho.
      apply lookup_insert_Some in H1 as [[<- <-]|[Hne1 H1]];
        apply lookup_insert_Some in H2 as [[<- <-]|[Hne2 H2]]; simpl in Ho; eauto.
      * specialize (Hr _ _ H2). lia.
      * specialize (Hr _ _ H1). lia.
    + intros k1 v1 H1. rewrite Hsz.
      apply lookup_insert_Some in H1 as [[<- <-]|[Hne1 H1]]; simpl; [lia|].
      specialize (Hr _ _ H1). lia.
Qed.

Lemma set_all_dense kvs (e : gmap string MetaEntry) :
  dense e → dense (set_all kvs e).
Proof.
  revert e. induction kvs as [|[k v] kvs IH]; intros e He; [done|].
  apply IH. by apply set_dense.
Qed.

Lemma contents_Some w m a e :
  metas w !! m = Some (mkMeta (Some a)) →
  contents w m = Ret e ↔ maps w !! a = Some e.
Proof.
  intros Hm. unfold contents. rewrite Hm.
  destruct (maps w !! a); split; intros; simplify_eq; done.
Qed.

Lemma Meta_set_all_dense w m k v :
  all_dense w → all_dense (Meta.set m k v w).2.
Proof.
  intros Hall. unfold Meta.set.
  destruct (metas w !! m) as [[[a|]]|] eqn:Hm; [| |done].
  - destruct (maps w !! a) as [e|] eqn:Ha; [|done].
    assert (He : dense e) by (apply (Hall m); by apply (contents_Some w m a)).
    intros n e' Hn. simpl in Hn.
    apply contents_inv in Hn as [[_ ->]|(b & Hn & Hb)]; [apply dense_empty|].
    simpl in Hn, Hb. apply lookup_insert_Some in Hb as [[<- <-]|[Hne Hb]].
    + by apply set_dense.
    + apply (Hall n). by apply (contents_Some w n b).
  - intros n e' Hn. simpl in Hn.
    apply contents_inv in Hn as [[_ ->]|(b & Hn & Hb)]; [apply dense_empty|].
    simpl in Hn, Hb. apply lookup_insert_Some in Hb as [[<- <-]|[Hne Hb]].
    + apply set_dense, dense_empty.
    + apply lookup_insert_Some in Hn as [[<- [= <-]]|[Hnm Hn]]; [done|].
      apply (Hall n). by apply (contents_Some w n b).
Qed.

Lemma Meta_new_all_dense w :
  all_dense w → all_dense (Meta.new w).2.
Proof.
  intros Hall n e' Hn. simpl in Hn.
  apply contents_inv in Hn as [[_ ->]|(b & Hn & Hb)]; [apply dense_empty|].
  simpl in Hn, Hb. apply lookup_insert_Some in Hn as [[_ [=]]|[Hnm Hn]].
  apply (Hall n). by apply (contents_Some w n b).
Qed.

Lemma Meta_copy_all_dense R w m :
  all_dense w → all_dense (Meta.copy R m w).2.
Proof.
  intros Hall. unfold Meta.copy.
  destruct (metas w !! m) as [[[a|]]|] eqn:Hm; [| |done].
  - destruct (maps w !! a) as [e|] eqn:Ha; [|done].
    assert (He : dense e) by (apply (Hall m); by apply (contents_Some w m a)).
    intros n e' Hn. simpl in Hn.
    apply contents_inv in Hn as [[_ ->]|(b & Hn & Hb)]; [apply dense_empty|].
    simpl in Hn, Hb.
    apply lookup_insert_Some in Hb as [[<- <-]|[Hne Hb]].
    + by rewrite Entries_copy_eq.
    + apply lookup_insert_Some in Hn as [[<- [= <-]]|[Hnm Hn]]; [done|].
      apply (Hall n). by apply (contents_Some w n b).
  - intros n e' Hn. simpl in Hn.
    apply contents_inv in Hn as [[_ ->]|(b & Hn & Hb)]; [apply dense_empty|].
    simpl in Hn, Hb. apply lookup_insert_Some in Hn as [[_ [=]]|[Hnm Hn]].
    apply (Hall n). by apply (contents_Some w n b).
Qed.

(** The methods of [Log] that touch a store keep the invariant: no logger
    built through them ever holds a store with a gap or a collision. *)
Lemma Log_mutators_all_dense R w a o flags depth k v err :
  all_dense w →
  all_dense (Log.newAdvanced o flags depth w).2 ∧
  all_dense (Log.New o w).2 ∧
  all_dense (Log.Set_ a k v w).2 ∧
  all_dense (Log.SetError a err w).2 ∧
  all_dense (Log.Copy R a w).2 ∧
  all_dense (Log.With R a k v w).2 ∧
  all_dense (Log.WithError R a err w).2.
Proof.
  intros Hall.
  assert (Hnew : ∀ w, all_dense w → all_dense (Log.newAdvanced o flags depth w).2).
  { intros w0 H0. unfold Log.newAdvanced, bind. simpl. by apply Meta_new_all_dense. }
  assert (Hset : ∀ a w k v, all_dense w → all_dense (Log.Set_ a k v w).2).
  { intros [l|] w0 k0 v0 H0; [|done]. unfold Log.Set_, bind.
    assert (H1 := Meta_set_all_dense w0 (log_Meta l) k0 v0 H0).
    by destruct (Meta.set (log_Meta l) k0 v0 w0) as [[] w1]. }
  assert (Hseterr : ∀ a w, all_dense w → all_dense (Log.SetError a err w).2).
  { intros a0 w0 H0. unfold Log.SetError, bind, lift.
    destruct (Sprintf_quoted err) as [s ->]. simpl. by apply Hset. }
  assert (Hcopy : ∀ w, all_dense w → all_dense (Log.Copy R a w).2).
  { intros w0 H0. destruct a as [l|]; [|done]. unfold Log.Copy, bind.
    assert (H1 := Meta_copy_all_dense R w0 (log_Meta l) H0).
    by destruct (Meta.copy R (log_Meta l) w0) as [[] w1]. }
  split_and!; [by apply Hnew | by apply Hnew | by apply Hset | by apply Hseterr
              | by apply Hcopy | |].
  - unfold Log.With, bind. specialize (Hcopy w Hall).
    destruct (Log.Copy R a w) as [[c| | | |] w1]; [|done..]. by apply Hset.
  - unfold Log.WithError, bind. specialize (Hcopy w Hall).
    destruct (Log.Copy R a w) as [[c| | | |] w1]; [|done..]. by apply Hseterr.
Qed.

Lemma empty_world_all_dense : all_dense empty_world.
Proof. intros m e Hm. unfold contents in Hm. simpl in Hm. by rewrite lookup_empty in Hm. Qed.

(** ** The claims on the store *)

Lemma foldl_set_all kvs (e : gmap string MetaEntry) :
  foldl (λ acc op, apply_entries op acc) e (uncurry DoSet <$> kvs) = set_all kvs e.
Proof.
  revert e. induction kvs as [|[k v] kvs IH]; intros e; [done|]. simpl. apply IH.
Qed.

(** C1. Calling [set] with pairwise distinct keys on a store that starts
    empty (and deleting nothing) gives the key of the [i]-th call the
    order number [i] (0, 1, 2, ...), with the value of that call; and in
    every state, [set] on a key that is present replaces the value of
    that entry and nothing else: its order number and every other entry
    stay as they were. *)
Theorem set_order_numbers :
  (∀ w m kvs,
     contents w m = Ret ∅ → NoDup kvs.*1 →
     ∃ w' e, run m (uncurry DoSet <$> kvs) w = (Ret (), w') ∧
             contents w' m = Ret e ∧
             ∀ (i : nat) k v, kvs !! i = Some (k, v) →
               e !! k = Some (mkMetaEntry v (Z.of_nat i))) ∧
  (∀ w m e k v vi,
     contents w m = Ret e → e !! k = Some vi →
     ∃ w', Meta.set m k v w = (Ret (), w') ∧
           contents w' m = Ret (<[k := mkMetaEntry v (order vi)]> e)).
Proof.
  split.
  - intros w m kvs Hm Hnd.
    destruct (run_frame w m (uncurry DoSet <$> kvs) ∅ Hm) as (w' & Hrun & Hm' & _).
    rewrite foldl_set_all in Hm'. exists w', (set_all kvs ∅). split_and!; [done..|].
    intros i k v Hi.
    destruct (set_all_distinct kvs ∅ Hnd) as (_ & _ & Hat).
    { intros k' _. apply lookup_empty. }
    rewrite (Hat i k v Hi). by rewrite map_size_empty.
  - intros w m e k v vi Hm Hk.
    destruct (apply_mutation_frame w m (DoSet k v) e Hm) as (w' & Hset & Hm' & _).
    exists w'. split; [done|]. simpl in Hm'. by rewrite (set_present k v vi) in Hm'.
Qed.

Lemma set_order_numbers_witness :
  (∃ w' e,
     run 0%nat [DoSet "foo" (VString "bar"); DoSet "t" (VInt 7)] test_world = (Ret (), w') ∧
     contents w' 0%nat = Ret e ∧
     ∀ (i : nat) k v, [("foo", VString "bar"); ("t", VInt 7)] !! i = Some (k, v) →
       e !! k = Some (mkMetaEntry v (Z.of_nat i))) ∧
  (∃ w', Meta.set 0%nat "foo" (VString "baz")
           (run 0%nat [DoSet "foo" (VString "bar"); DoSet "t" (VInt 7)] test_world).2
         = (Ret (), w') ∧
         contents w' 0%nat
         = Ret (<["foo" := mkMetaEntry (VString "baz") 0]>
                  (set_all [("foo", VString "bar"); ("t", VInt 7)] ∅))).
Proof.
  split.
  - apply (proj1 set_order_numbers test_world 0%nat
             [("foo", VString "bar"); ("t", VInt 7)]).
    + vm_compute. reflexivity.
    + apply (bool_decide_unpack _). vm_compute. exact I.
  - apply (proj2 set_order_numbers _ 0%nat _ "foo" (VString "baz")
             (mkMetaEntry (VString "bar") 0)).
    + vm_compute. reflexivity.
    + vm_compute. reflexivity.
Defined.

Lemma spec_example_dense : dense spec_example_entries.
Proof.
  replace spec_example_entries
    with (set_all [("foo", VString "bar"); ("t", VInt 7)] ∅)
    by (vm_compute; reflexivity).
  apply set_all_dense, dense_empty.
Qed.

Lemma Meta_format_contents R w m e delim wrapper :
  contents w m = Ret e →
  Meta.format R m delim wrapper w = (Entries.format R delim wrapper e, w).
Proof. intros Hm. unfold Meta.format. by rewrite Hm. Qed.

(** Where the code renders the store as described. For every store whose
    order numbers are exactly [0 .. len-1] (pairwise distinct and below
    the number of entries, as in every store built by [set] alone),
    whatever the order in which the map yields its entries, [format]
    returns the empty string for the empty store, the wrapper not being
    applied; otherwise the entries rendered as ["key=value"], sorted by
    their stored order, joined with the delimiter, and substituted into
    the wrapper, or returned as they are when the wrapper is empty. In
    particular [format(", ", "*%s*")] over foo=bar (order 0), t=7
    (order 1) is ["*foo=bar, t=7*"], and over an empty store it is the
    empty string. *)
Theorem format_sorted_by_order :
  (∀ R w m e delim wrapper,
     contents w m = Ret e → dense e →
     Meta.format R m delim wrapper w = (format_spec delim wrapper e, w)) ∧
  (∀ R, Entries.format R ", " "*%s*" spec_example_entries = Ret "*foo=bar, t=7*") ∧
  (∀ R delim wrapper, Entries.format R delim wrapper ∅ = Ret "").
Proof.
  split_and!.
  - intros R w m e delim wrapper Hm He.
    rewrite (Meta_format_contents R w m e) by done. by rewrite format_dense.
  - intros R. rewrite format_dense by apply spec_example_dense.
    vm_compute. reflexivity.
  - intros R delim wrapper. by rewrite format_dense by apply dense_empty.
Qed.

Lemma format_sorted_by_order_witness :
  contents (run 0%nat [DoSet "foo" (VString "bar"); DoSet "key" (VInt 7)] test_world).2 0%nat
    = Ret (set_all [("foo", VString "bar"); ("key", VInt 7)] ∅) ∧
  Meta.format range_reversed 0%nat " " "[%s]"
    (run 0%nat [DoSet "foo" (VString "bar"); DoSet "key" (VInt 7)] test_world).2
  = (Ret "[foo=bar key=7]",
     (run 0%nat [DoSet "foo" (VString "bar"); DoSet "key" (VInt 7)] test_world).2).
Proof.
  split; [vm_compute; reflexivity|].
  eapply eq_trans.
  - apply (proj1 format_sorted_by_order range_reversed _ 0%nat
             (set_all [("foo", VString "bar"); ("key", VInt 7)] ∅) " " "[%s]").
    + vm_compute. reflexivity.
    + apply set_all_dense, dense_empty.
  - vm_compute. reflexivity.
Defined.

(** C2, the code at the failing input. The calls set a=1, set b=2, del a
    succeed and leave a store of one entry, b=2 with the order number 1
    it was given. Sorting the rendered entries by their stored order,
    joining them with [" "] and wrapping them in ["[%s]"], as the claim
    says of every store, gives ["[b=2]"]. The code makes
    [len(entries) = 1] slot and writes slot 1: [format(" ", "[%s]")]
    faults with an index out of range and returns no string, whatever
    the order in which the map yields its entries. *)
Theorem format_after_del_returns_nothing R :
  let e : gmap string MetaEntry := {[ "b" := mkMetaEntry (VInt 2) 1 ]} in
  ∃ w, run 0%nat gap_ops test_world = (Ret (), w) ∧
       contents w 0%nat = Ret e ∧
       format_spec " " "[%s]" e = Ret "[b=2]" ∧
       Meta.format R 0%nat " " "[%s]" w = (Faulted IndexOutOfRange, w) ∧
       (Meta.format R 0%nat " " "[%s]" w).1 ≠ format_spec " " "[%s]" e.
Proof.
  intros e.
  assert (Hw : ∃ w, run 0%nat gap_ops test_world = (Ret (), w) ∧ contents w 0%nat = Ret e).
  { eexists. split; [reflexivity|]. vm_compute. reflexivity. }
  destruct Hw as (w & Hrun & Hm). exists w.
  assert (Hs : format_spec " " "[%s]" e = Ret "[b=2]") by (vm_compute; reflexivity).
  assert (Hf : Entries.format R " " "[%s]" e = Faulted IndexOutOfRange).
  { apply (format_gap_faults R " " "[%s]" e "b" (mkMetaEntry (VInt 2) 1)).
    - apply lookup_singleton_eq.
    - unfold e. rewrite map_size_singleton. simpl. lia. }
  rewrite (Meta_format_contents R w 0%nat e " " "[%s]" Hm), Hf, Hs.
  split_and!; [exact Hrun | exact Hm | reflexivity | reflexivity | discriminate].
Qed.

(** C3, the code at the failing input. After set foo, set t, del foo the
    store holds one entry, t with order 1; [format] makes one slot and
    writes slot 1: it faults, whatever the order of enumeration. The
    claim says that it completes and places the entry. *)
Theorem format_faults_after_del R :
  ((let* m := Meta.new in
    Meta.set m "foo" (VString "bar") ;;;
    Meta.set m "t" (VInt 7) ;;;
    Meta.del m "foo" ;;;
    Meta.format R m " " "[%s]") empty_world).1 = Faulted IndexOutOfRange.
Proof.
  assert (Hw : ∃ w, contents w 0%nat = Ret {[ "t" := mkMetaEntry (VInt 7) 1 ]} ∧
    (let* m := Meta.new in
     Meta.set m "foo" (VString "bar") ;;;
     Meta.set m "t" (VInt 7) ;;;
     Meta.del m "foo" ;;;
     Meta.format R m " " "[%s]") empty_world = Meta.format R 0%nat " " "[%s]" w).
  { eexists. split; [|reflexivity]. vm_compute. reflexivity. }
  destruct Hw as (w & Hm & ->).
  rewrite (Meta_format_contents R w 0%nat _ " " "[%s]" Hm). simpl.
  apply (format_gap_faults R " " "[%s]" _ "t" (mkMetaEntry (VInt 7) 1)).
  - apply lookup_singleton_eq.
  - rewrite map_size_singleton. simpl. lia.
Qed.

(** Where the result of [format] is a function of the state. Two states
    that hold the same mapping from keys to (value, order), with pairwise
    distinct order numbers (as in every store built without [del]), give
    the same result of [format], whatever the orders in which the map
    yields its entries in the two runs: each rendered entry goes to the
    slot of its order number. *)
Theorem format_deterministic R1 R2 w1 w2 m1 m2 e delim wrapper :
  contents w1 m1 = Ret e → contents w2 m2 = Ret e →
  distinct_orders e →
  (Meta.format R1 m1 delim wrapper w1).1 = (Meta.format R2 m2 delim wrapper w2).1.
Proof.
  intros H1 H2 Hd.
  rewrite (Meta_format_contents R1 w1 m1 e), (Meta_format_contents R2 w2 m2 e) by done.
  simpl. unfold Entries.format. apply format_range_Permutation.
  - by rewrite !range_perm.
  - apply (distinct_orders_NoDup e); [done | apply range_perm].
Qed.

Lemma format_deterministic_witness :
  (Meta.format range_canonical 0%nat ", " "*%s*" TestMeta_world).1
  = (Meta.format range_reversed 0%nat ", " "*%s*" TestMeta_world).1.
Proof.
  apply (format_deterministic range_canonical range_reversed TestMeta_world TestMeta_world
           0%nat 0%nat
           (set_all [("foo", VString "bar"); ("t", VInt 7); ("foo", VString "baz")] ∅)).
  - vm_compute. reflexivity.
  - vm_compute. reflexivity.
  - apply set_all_dense, dense_empty.
Defined.

(** C10, the code at the failing input. The calls set a=1, set b=2, del a,
    set c=3 succeed and leave a store of two entries, b=2 and c=3, both
    with the order number 1: [set] numbers a new key by the count of
    entries, which [del] has lowered to the number b already has.
    [format(" ", "[%s]")] makes two slots and writes both entries into
    slot 1, so that the entry the map yields last is the one returned:
    on this one state the result is ["[ b=2]"] under one order of
    enumeration and ["[ c=3]"] under the reverse one, and under every
    order it is one of the two. The claim says that the result is a
    function of the state alone. *)
Theorem format_after_del_set_depends_on_range :
  let e : gmap string MetaEntry :=
    {[ "b" := mkMetaEntry (VInt 2) 1; "c" := mkMetaEntry (VInt 3) 1 ]} in
  ∃ w, run 0%nat collide_ops test_world = (Ret (), w) ∧
       contents w 0%nat = Ret e ∧
       (Meta.format range_canonical 0%nat " " "[%s]" w).1 = Ret "[ b=2]" ∧
       (Meta.format range_reversed 0%nat " " "[%s]" w).1 = Ret "[ c=3]" ∧
       (Meta.format range_canonical 0%nat " " "[%s]" w).1
       ≠ (Meta.format range_reversed 0%nat " " "[%s]" w).1 ∧
       ∀ R, (Meta.format R 0%nat " " "[%s]" w).1 = Ret "[ b=2]" ∨
            (Meta.format R 0%nat " " "[%s]" w).1 = Ret "[ c=3]".
Proof.
  intros e.
  assert (Hw : ∃ w, run 0%nat collide_ops test_world = (Ret (), w) ∧
                    contents w 0%nat = Ret e).
  { eexists. split; [reflexivity|]. vm_compute. reflexivity. }
  destruct Hw as (w & Hrun & Hm). exists w.
  assert (Hfmt : ∀ R, (Meta.format R 0%nat " " "[%s]" w).1 = Entries.format R " " "[%s]" e).
  { intros R. by rewrite (Meta_format_contents R w 0%nat e " " "[%s]" Hm). }
  assert (Hc : Entries.format range_canonical " " "[%s]" e = Ret "[ b=2]")
    by (vm_compute; reflexivity).
  assert (Hr : Entries.format range_reversed " " "[%s]" e = Ret "[ c=3]")
    by (vm_compute; reflexivity).
  rewrite !Hfmt, Hc, Hr.
  split_and!; [exact Hrun | exact Hm | reflexivity | reflexivity | discriminate |].
  intros R. rewrite Hfmt. unfold Entries.format.
  assert (Hl : map_to_list e
               = [("c", mkMetaEntry (VInt 3) 1); ("b", mkMetaEntry (VInt 2) 1)]
             ∨ map_to_list e
               = [("b", mkMetaEntry (VInt 2) 1); ("c", mkMetaEntry (VInt 3) 1)]).
  { vm_compute. tauto. }
  assert (Hp := range_perm R e).
  destruct Hl as [Hl|Hl]; rewrite Hl in Hp; symmetry in Hp;
    apply Permutation_length_2_inv in Hp as [-> | ->];
    vm_compute; tauto.
Qed.

Lemma Meta_get_contents w m e k :
  contents w m = Ret e → Meta.get m k w = (Ret (Entries.get k e), w).
Proof. intros Hm. unfold Meta.get. by rewrite Hm. Qed.

(** What [get] and [format] return on a store depends on its contents only. *)
Lemma observations_contents w1 w2 m e :
  contents w1 m = Ret e → contents w2 m = Ret e →
  ∀ k R d f, (Meta.get m k w2).1 = (Meta.get m k w1).1 ∧
             (Meta.format R m d f w2).1 = (Meta.format R m d f w1).1.
Proof.
  intros H1 H2 k R d f.
  by rewrite !(Meta_get_contents _ m e), !(Meta_format_contents R _ m e).
Qed.

Lemma run_on_frame w m n ops em en :
  disjoint_stores w m n →
  contents w m = Ret em → contents w n = Ret en →
  ∃ w', run_on m n ops w = (Ret (), w') ∧
        contents w' m = Ret (foldl (λ acc op, apply_entries op acc) em (ops_of Original ops)) ∧
        contents w' n = Ret (foldl (λ acc op, apply_entries op acc) en (ops_of Copied ops)).
Proof.
  revert w em en. induction ops as [|[[] op] ops IH]; intros w em en Hdis Hm Hn.
  - exists w. by split_and!.
  - destruct (apply_mutation_frame w m op em Hm) as (w1 & Hop & Hm1 & _ & Hfr).
    destruct (Hfr n en Hdis Hn) as [Hn1 Hdis1].
    destruct (IH w1 _ _ Hdis1 Hm1 Hn1) as (w2 & Hrun & Hm2 & Hn2).
    exists w2. split_and!; [|done..]. simpl. unfold bind. by rewrite Hop.
  - destruct (apply_mutation_frame w n op en Hn) as (w1 & Hop & Hn1 & _ & Hfr).
    destruct (Hfr m em (disjoint_stores_sym _ _ _ Hdis) Hm) as [Hm1 Hdis1].
    destruct (IH w1 _ _ (disjoint_stores_sym _ _ _ Hdis1) Hm1 Hn1) as (w2 & Hrun & Hm2 & Hn2).
    exists w2. split_and!; [|done..]. simpl. unfold bind. by rewrite Hop.
Qed.

(** C4. [copy] returns a new store with the same entries (keys, values
    and order numbers) as the original. From then on the two are
    independent: after any run of [set] and [del] calls, each on the
    original or on the copy, [get] and [format] on either store return
    what they return when the calls on the other store are left out. In
    particular calls on the copy alone leave what [get] and [format]
    return on the original as it was before the copy, and calls on the
    original alone leave the copy as it was made. *)
Theorem copy_isolated R w m e :
  contents w m = Ret e →
  ∃ n w1, Meta.copy R m w = (Ret n, w1) ∧ n ≠ m ∧
    contents w1 n = Ret e ∧ contents w1 m = Ret e ∧
    ∀ ops, ∃ w2 wm wn,
      run_on m n ops w1 = (Ret (), w2) ∧
      run m (ops_of Original ops) w1 = (Ret (), wm) ∧
      run n (ops_of Copied ops) w1 = (Ret (), wn) ∧
      ∀ k R' d f,
        (Meta.get m k w2).1 = (Meta.get m k wm).1 ∧
        (Meta.format R' m d f w2).1 = (Meta.format R' m d f wm).1 ∧
        (Meta.get n k w2).1 = (Meta.get n k wn).1 ∧
        (Meta.format R' n d f w2).1 = (Meta.format R' n d f wn).1 ∧
        (Meta.get m k wn).1 = (Meta.get m k w).1 ∧
        (Meta.format R' m d f wn).1 = (Meta.format R' m d f w).1 ∧
        (Meta.get n k wm).1 = (Meta.get n k w1).1 ∧
        (Meta.format R' n d f wm).1 = (Meta.format R' n d f w1).1.
Proof.
  intros Hm.
  destruct (copy_spec R w m e Hm) as (n & w1 & Hcopy & Hn1 & Hm1 & Hdis & _).
  exists n, w1. split_and!; [done | by destruct Hdis as [? _] | done | done |].
  intros ops.
  destruct (run_on_frame w1 m n ops e e Hdis Hm1 Hn1) as (w2 & Hrun & Hm2 & Hn2).
  destruct (run_frame w1 m (ops_of Original ops) e Hm1) as (wm & Hrunm & Hmm & _ & Hfrm).
  destruct (run_frame w1 n (ops_of Copied ops) e Hn1) as (wn & Hrunn & Hnn & _ & Hfrn).
  destruct (Hfrm n e Hdis Hn1) as [Hnm _].
  destruct (Hfrn m e (disjoint_stores_sym _ _ _ Hdis) Hm1) as [Hmn _].
  exists w2, wm, wn. split_and!; [done..|].
  intros k R' d f.
  destruct (observations_contents wm w2 m _ Hmm Hm2 k R' d f) as [-> ->].
  destruct (observations_contents wn w2 n _ Hnn Hn2 k R' d f) as [-> ->].
  destruct (observations_contents w wn m _ Hm Hmn k R' d f) as [-> ->].
  destruct (observations_contents w1 wm n _ Hn1 Hnm k R' d f) as [-> ->].
  done.
Qed.

Lemma copy_isolated_witness :
  contents TestMeta_world 0%nat
  = Ret (set_all [("foo", VString "bar"); ("t", VInt 7); ("foo", VString "baz")] ∅) ∧
  ∃ n w1, Meta.copy range_canonical 0%nat TestMeta_world = (Ret n, w1) ∧ n ≠ 0%nat ∧
    contents w1 n = contents TestMeta_world 0%nat.
Proof.
  split; [vm_compute; reflexivity|].
  destruct (copy_isolated range_canonical TestMeta_world 0%nat
              (set_all [("foo", VString "bar"); ("t", VInt 7); ("foo", VString "baz")] ∅))
    as (n & w1 & Hcopy & Hne & Hn & _).
  { vm_compute. reflexivity. }
  by exists n, w1.
Defined.

(** ** The claims on the logger *)

(** Case analysis on a result of the [fmt] fragment. *)
Ltac by_fmt_result r := destruct r; simpl; first [done | tauto].

(** C5. On the nil logger, for all arguments: [Copy], [Set], [SetError],
    [With] and [WithError] return nil and change nothing; [Sprint],
    [Sprintf] and [Sprintln] return what [fmt.Sprint], [fmt.Sprintf] and
    [fmt.Sprintln] return on the same arguments; [Print], [Printf] and
    [Println] hand that string to the fallback logger, which writes to
    standard output; [Panic], [Panicf] and [Panicln] do the same and then
    panic with that same, unprefixed string, and [Fatal], [Fatalf] and
    [Fatalln] do the same and then exit with status 1; no method
    faults. *)
Theorem nil_logger R w k v err f args :
  Log.Copy R None w = (Ret None, w) ∧
  Log.Set_ None k v w = (Ret None, w) ∧
  Log.SetError None err w = (Ret None, w) ∧
  Log.With R None k v w = (Ret None, w) ∧
  Log.WithError R None err w = (Ret None, w) ∧
  Log.Sprint R None args w = (Ret (fmt.Sprint args), w) ∧
  Log.Sprintf R None f args w = (of_fmt (fmt.Sprintf f args), w) ∧
  Log.Sprintln R None args w = (Ret (fmt.Sprintln args), w) ∧
  lg_out fallback = Stdout ∧
  Log.Print R None args w
    = (Ret (), add_written (mkEvent fallback defaultCalldepth (fmt.Sprint args)) w) ∧
  Log.Printf R None f args w
    = match fmt.Sprintf f args with
      | Some s => (Ret (), add_written (mkEvent fallback defaultCalldepth s) w)
      | None => (Unmodelled, w)
      end ∧
  Log.Println R None args w
    = (Ret (), add_written (mkEvent fallback defaultCalldepth (fmt.Sprintln args)) w) ∧
  Log.Panic R None args w
    = (Panicked (fmt.Sprint args),
       add_written (mkEvent fallback defaultCalldepth (fmt.Sprint args)) w) ∧
  Log.Panicf R None f args w
    = match fmt.Sprintf f args with
      | Some s => (Panicked s, add_written (mkEvent fallback defaultCalldepth s) w)
      | None => (Unmodelled, w)
      end ∧
  Log.Panicln R None args w
    = (Panicked (fmt.Sprintln args),
       add_written (mkEvent fallback defaultCalldepth (fmt.Sprintln args)) w) ∧
  Log.Fatal R None args w
    = (Exited 1, add_written (mkEvent fallback defaultCalldepth (fmt.Sprint args)) w) ∧
  Log.Fatalf R None f args w
    = match fmt.Sprintf f args with
      | Some s => (Exited 1, add_written (mkEvent fallback defaultCalldepth s) w)
      | None => (Unmodelled, w)
      end ∧
  Log.Fatalln R None args w
    = (Exited 1, add_written (mkEvent fallback defaultCalldepth (fmt.Sprintln args)) w) ∧
  ¬ faults (Log.Sprintf R None f args w).1 ∧
  ¬ faults (Log.Printf R None f args w).1 ∧
  ¬ faults (Log.Panicf R None f args w).1 ∧
  ¬ faults (Log.Fatalf R None f args w).1.
Proof.
  assert (Hf : Log.Sprintf R None f args w = (of_fmt (fmt.Sprintf f args), w)) by done.
  split_and!; try done; try (by destruct err);
    unfold Log.Printf, Log.Panicf, Log.Fatalf, bind; rewrite Hf;
    by_fmt_result (fmt.Sprintf f args).
Qed.

(** The prefix of a logger whose store is non-empty and dense. *)
Lemma prefix_dense R w l e :
  contents w (log_Meta l) = Ret e → dense e → e ≠ ∅ →
  Log.prefix R (Some l) w
  = (Ret ("[" +:+ strings_Join (render <$> merge_sort by_order (map_to_list e)) " " +:+ "]"), w).
Proof.
  intros Hm Hd Hne. unfold Log.prefix.
  rewrite (Meta_format_contents R w _ e) by done.
  rewrite format_dense by done. unfold format_spec.
  rewrite bool_decide_eq_false_2 by done.
  rewrite bool_decide_eq_false_2 by done.
  by rewrite Sprintf_brackets.
Qed.

Lemma prefix_empty R w l :
  contents w (log_Meta l) = Ret ∅ →
  Log.prefix R (Some l) w = (Ret "", w).
Proof.
  intros Hm. unfold Log.prefix.
  rewrite (Meta_format_contents R w _ ∅) by done.
  by rewrite format_dense by apply dense_empty.
Qed.

(** The prefix of a logger with metadata, when [format] returns it, is
    the joined entries between brackets. *)
Lemma prefix_bracketed R w l e p :
  contents w (log_Meta l) = Ret e → e ≠ ∅ →
  Log.prefix R (Some l) w = (Ret p, w) →
  ∃ body, p = "[" +:+ body +:+ "]".
Proof.
  intros Hm Hne. unfold Log.prefix.
  rewrite (Meta_format_contents R w _ e) by done.
  unfold Entries.format, Entries.format_range.
  rewrite bool_decide_eq_false_2 by (by rewrite map_size_empty_iff).
  destruct (Entries.place_all (R e) (replicate (size e) "")) as [pts| | | |];
    simpl; try (intros [=]; done).
  intros [= <-]. by exists (strings_Join pts " ").
Qed.

Lemma bracketed_nonempty body : "[" +:+ body +:+ "]" ≠ "".
Proof. discriminate. Qed.

(** C7. On every logger that is not nil, for all arguments: with empty
    metadata [Sprint] returns [fmt.Sprint] of the arguments and nothing
    before it (no empty brackets); with non-empty metadata it returns
    the prefix, which has the form ["[...]"], then exactly one space,
    then [fmt.Sprint] of the arguments. The prefix is what [prefix()]
    returns on the logger; it does return on every store that satisfies
    the invariant of the order numbers, which the methods of [Log]
    keep ([Log_mutators_all_dense]). *)
Theorem Sprint_prefix R w l e v :
  contents w (log_Meta l) = Ret e →
  (e = ∅ → Log.Sprint R (Some l) v w = (Ret (fmt.Sprint v), w)) ∧
  (e ≠ ∅ →
   (∀ p, Log.prefix R (Some l) w = (Ret p, w) →
      (∃ body, p = "[" +:+ body +:+ "]") ∧
      Log.Sprint R (Some l) v w = (Ret (p +:+ " " +:+ fmt.Sprint v), w)) ∧
   (dense e → ∃ p, Log.prefix R (Some l) w = (Ret p, w))).
Proof.
  intros Hm. split.
  - intros ->. unfold Log.Sprint, Log.buildPrefixArgs, bind.
    by rewrite prefix_empty.
  - intros Hne. split.
    + intros p Hp.
      destruct (prefix_bracketed R w l e p Hm Hne Hp) as [body ->].
      split; [by exists body|].
      unfold Log.Sprint, Log.buildPrefixArgs, bind. rewrite Hp.
      rewrite bool_decide_eq_true_2 by apply bracketed_nonempty.
      unfold ret. by rewrite <-Sprint_after_string_args.
    + intros Hd. eexists. by apply prefix_dense.
Qed.

Lemma Sprint_prefix_witness :
  (∃ body, "[foo=bar key=7]" = "[" +:+ body +:+ "]") ∧
  Log.Sprint range_canonical (Some TestLog_logger) [VString "test"] TestLog_world
  = (Ret ("[foo=bar key=7]" +:+ " " +:+ fmt.Sprint [VString "test"]), TestLog_world).
Proof.
  apply (proj1 (proj2 (Sprint_prefix range_canonical TestLog_world TestLog_logger
                         TestLog_entries [VString "test"]
                         ltac:(vm_compute; reflexivity))
                  ltac:(vm_compute; discriminate))).
  vm_compute. reflexivity.
Defined.

(** C6. On every logger that is not nil and has non-empty metadata, for
    all arguments: [Panic] hands the prefixed string (prefix, one space,
    message) to the logger's [Output] and then panics with [fmt.Sprint]
    of the arguments alone; [Panicln] and [Panicf] likewise hand over
    what [Sprintln] and [Sprintf] build with the prefix, and panic with
    [fmt.Sprintln] and [fmt.Sprintf] of the arguments alone. The prefix
    is what [prefix()] returns on the logger; it does return on every
    store that satisfies the invariant of the order numbers, which the
    methods of [Log] keep ([Log_mutators_all_dense]). *)
Theorem Panic_message R w l e v f :
  contents w (log_Meta l) = Ret e → e ≠ ∅ →
  (∀ p, Log.prefix R (Some l) w = (Ret p, w) →
     (∃ body, p = "[" +:+ body +:+ "]") ∧
     Log.Panic R (Some l) v w
     = (Panicked (fmt.Sprint v),
        add_written (mkEvent (log_Logger l) (calldepth l) (p +:+ " " +:+ fmt.Sprint v)) w) ∧
     Log.Panicln R (Some l) v w
     = (Panicked (fmt.Sprintln v),
        add_written (mkEvent (log_Logger l) (calldepth l)
                       (fmt.Sprintln (VString p :: VString " " :: v))) w) ∧
     ∀ s1 s2,
       fmt.Sprintf (p +:+ " " +:+ f) v = Some s1 →
       fmt.Sprintf f v = Some s2 →
       Log.Panicf R (Some l) f v w
       = (Panicked s2, add_written (mkEvent (log_Logger l) (calldepth l) s1) w)) ∧
  (dense e → ∃ p, Log.prefix R (Some l) w = (Ret p, w)).
Proof.
  intros Hm Hne. split; [|intros Hd; eexists; by apply prefix_dense].
  intros p Hp.
  destruct (prefix_bracketed R w l e p Hm Hne Hp) as [body ->].
  split; [by exists body|].
  assert (Hnonempty := bracketed_nonempty body).
  split_and!.
  - unfold Log.Panic, Log.Sprint, Log.buildPrefixArgs, bind. rewrite Hp.
    rewrite bool_decide_eq_true_2 by done. unfold ret. simpl.
    by rewrite Sprint_after_string_args.
  - unfold Log.Panicln, Log.Sprintln, Log.buildPrefixArgs, bind. rewrite Hp.
    by rewrite bool_decide_eq_true_2 by done.
  - intros s1 s2 Hs1 Hs2.
    unfold Log.Panicf, Log.Sprintf, Log.addPrefix, bind. rewrite Hp.
    rewrite bool_decide_eq_true_2 by done. unfold ret, lift.
    rewrite Hs1. simpl. by rewrite Hs2.
Qed.

Lemma Panic_message_witness :
  Log.Panic range_canonical (Some TestLog_logger) [VString "xxx"] TestLog_world
  = (Panicked (fmt.Sprint [VString "xxx"]),
     add_written (mkEvent (log_Logger TestLog_logger) (calldepth TestLog_logger)
                    ("[foo=bar key=7]" +:+ " " +:+ fmt.Sprint [VString "xxx"]))
       TestLog_world).
Proof.
  apply (proj1 (Panic_message range_canonical TestLog_world TestLog_logger TestLog_entries
                  [VString "xxx"] ""
                  ltac:(vm_compute; reflexivity) ltac:(vm_compute; discriminate))
           "[foo=bar key=7]").
  vm_compute. reflexivity.
Defined.

Example TestLog_Panic :
  let r := Log.Panic range_canonical (Some TestLog_logger) [VString "xxx"] TestLog_world in
  r.1 = Panicked "xxx" ∧
  written r.2 = [mkEvent (mkLogger (Writer 0) "" 0) 3 "[foo=bar key=7] xxx"].
Proof. vm_compute. done. Qed.

(** C9. [Copy] of a logger (not nil) returns a logger whose call depth is
    3, whatever the call depth of the source; its writer and its flags
    are those of the source, and its store is a new one with the same
    contents. *)
Theorem Copy_resets_calldepth R w l e :
  contents w (log_Meta l) = Ret e →
  ∃ l' w',
    Log.Copy R (Some l) w = (Ret (Some l'), w') ∧
    calldepth l' = 3 ∧
    out l' = out l ∧
    lg_out (log_Logger l') = out l ∧
    lg_flags (log_Logger l') = lg_flags (log_Logger l) ∧
    contents w' (log_Meta l') = Ret e ∧
    log_Meta l' ≠ log_Meta l.
Proof.
  intros Hm.
  destruct (copy_spec R w _ e Hm) as (n & w' & Hcopy & Hn & _ & [Hne _] & _).
  eexists _, w'. split.
  - unfold Log.Copy, bind. rewrite Hcopy. reflexivity.
  - by split_and!.
Qed.

Lemma Copy_resets_calldepth_witness :
  ∃ l' w',
    Log.Copy range_canonical
      (Some (mkLog (mkLogger (Writer 0) "" 0) 0%nat (Writer 0) 5)) TestLog_world
    = (Ret (Some l'), w') ∧
    calldepth l' = 3.
Proof.
  destruct (Copy_resets_calldepth range_canonical TestLog_world
              (mkLog (mkLogger (Writer 0) "" 0) 0%nat (Writer 0) 5) TestLog_entries
              ltac:(vm_compute; reflexivity))
    as (l' & w' & Hcopy & Hdepth & _).
  exists l', w'. exact (conj Hcopy Hdepth).
Defined.

Lemma Sprintf_no_percent R w l p f v :
  Log.prefix R (Some l) w = (Ret p, w) → p ≠ "" → no_percent p = true →
  Log.Sprintf R (Some l) f v w
  = (of_fmt ((λ s, p +:+ " " +:+ s) <$> fmt.Sprintf f v), w).
Proof.
  intros Hp Hne Hno.
  unfold Log.Sprintf, Log.addPrefix, bind. rewrite Hp.
  rewrite bool_decide_eq_true_2 by done. unfold ret, lift. f_equal. f_equal.
  unfold fmt.Sprintf. rewrite (doPrintf_literal p) by done.
  change (" " +:+ f) with (String " " f). rewrite doPrintf_byte by done.
  by destruct (fmt.doPrintf f v).
Qed.

(** C8, as amended. [Sprintf] puts the prefix into the template before
    the operands are substituted. So there is a logger whose prefix
    holds a ['%'] (the value ["%s"] under key k) for which [Sprintf]
    reads the prefix's bytes as a verb and does not return the prefix, a
    space and [fmt.Sprintf] of the arguments; and for every logger whose
    prefix is non-empty and holds no ['%'], [Sprintf] returns exactly the
    prefix, one space and [fmt.Sprintf] of the arguments. *)
Theorem Sprintf_prefix_in_template :
  (∃ w l p f v s,
     Log.prefix range_canonical (Some l) w = (Ret p, w) ∧
     no_percent p = false ∧
     fmt.Sprintf f v = Some s ∧
     ∃ s', Log.Sprintf range_canonical (Some l) f v w = (Ret s', w) ∧
           s' ≠ p +:+ " " +:+ s) ∧
  (∀ R w l p f v,
     Log.prefix R (Some l) w = (Ret p, w) → p ≠ "" → no_percent p = true →
     Log.Sprintf R (Some l) f v w
     = (of_fmt ((λ s, p +:+ " " +:+ s) <$> fmt.Sprintf f v), w)).
Proof.
  split; [|apply Sprintf_no_percent].
  exists verb_world, TestLog_logger, "[k=%s]", "%d", [VInt 7], "7".
  split_and!; [by vm_compute..|].
  exists "[k=%!s(int=7)] %!d(MISSING)". split; [by vm_compute|]. discriminate.
Qed.

Lemma Sprintf_prefix_in_template_witness :
  Log.Sprintf range_canonical (Some TestLog_logger) "%s %d" [VString "foo"; VInt 7]
    TestLog_world
  = (of_fmt ((λ s, "[foo=bar key=7]" +:+ " " +:+ s)
             <$> fmt.Sprintf "%s %d" [VString "foo"; VInt 7]), TestLog_world).
Proof.
  apply (proj2 Sprintf_prefix_in_template range_canonical TestLog_world TestLog_logger
           "[foo=bar key=7]" "%s %d" [VString "foo"; VInt 7]).
  - vm_compute. reflexivity.
  - discriminate.
  - reflexivity.
Defined.

(** C8 as stated fails for a logger without metadata: its prefix, the
    empty string, holds no ['%'], and [Sprintf] returns the plain
    message, without the space that the claimed equation puts first. *)
Lemma Sprintf_empty_prefix_counterexample :
  Log.prefix range_canonical (Some TestLog_logger) test_world = (Ret "", test_world) ∧
  no_percent "" = true ∧
  fmt.Sprintf "x" [] = Some "x" ∧
  Log.Sprintf range_canonical (Some TestLog_logger) "x" [] test_world = (Ret "x", test_world) ∧
  "x" ≠ "" +:+ " " +:+ "x".
Proof. split_and!; [by vm_compute..|discriminate]. Qed.
